(** * fib.py: iterative and recursive Fibonacci, and what they print

    A shallow embedding of [src/fib.py].  Python integers are unbounded, so
    they are [Z]; standard output is the string written so far, threaded
    through every [print]; the interpreter's bound on the depth of nested
    calls is a [nat] budget, and its bound on the digits of an integer
    turned into text is a [nat] limit under which a [print] can raise. *)

From Equations Require Import Equations.
From Stdlib Require Import ZArith List Lia Bool Wellfounded.
From Stdlib Require Import Ascii String DecimalString DecimalPos DecimalZ.
Import ListNotations.

Local Open Scope string_scope.
Local Open Scope Z_scope.

(** ** Builtins used by the program *)

Module Builtins.

(** [str(v)] on an integer: its decimal digits, ["-"] in front of a
    negative one, ["0"] for zero. *)
Definition str (v : Z) : string := NilEmpty.string_of_int (Z.to_int v).

(** [range(n)]: the integers [0, 1, ..., n-1]; empty when [n <= 0]. *)
Definition range (n : Z) : list Z := map Z.of_nat (seq 0 (Z.to_nat n)).

(** Standard output: everything written so far. *)
Definition stdout := string.

(** [print(s, end=e)]: writes [s], then [e]. *)
Definition print_end (s e : string) (out : stdout) : stdout := out ++ s ++ e.

Definition newline : string := String (ascii_of_nat 10) EmptyString.

(** [print(s)]: the default [end] is a newline. *)
Definition print (s : string) (out : stdout) : stdout := print_end s newline out.

(** [print()]: no argument, so only the newline. *)
Definition print0 (out : stdout) : stdout := print "" out.

(** A [for] loop over a list: the body is run once per element, in order,
    on the state left by the previous iteration. *)
Definition for_in {A S : Type} (xs : list A) (body : A -> S -> S) (s : S) : S :=
  fold_left (fun st x => body x st) xs s.

End Builtins.

Import Builtins.

(** ** The recursive evaluator *)

(** [fibonacci_recursive] under a budget of nested calls: [None] is the
    interpreter giving up because the calls nest deeper than the budget. *)
Fixpoint fibonacci_recursive_fuel (depth : nat) (n : Z) : option Z :=
  match depth with
  | O => None
  | S depth' =>
      if n <=? 0 then Some 0
      else if n =? 1 then Some 1
      else match fibonacci_recursive_fuel depth' (n - 1) with
           | None => None
           | Some x =>
               match fibonacci_recursive_fuel depth' (n - 2) with
               | None => None
               | Some y => Some (x + y)
               end
           end
  end.

(** The calls the body makes: [calls m n] when evaluating at [n] calls the
    function at [m]. *)
Definition calls (m n : Z) : Prop :=
  ~ n <= 0 /\ n <> 1 /\ (m = n - 1 \/ m = n - 2).

(** [fibonacci_recursive] as a total function, by recursion on the distance
    of [n] above the base cases. *)
Equations? fibonacci_recursive (n : Z) : Z by wf (Z.to_nat n) lt :=
  fibonacci_recursive n with Z_le_dec n 0 := {
    | left _ := 0
    | right _ with Z.eq_dec n 1 := {
        | left _ := 1
        | right _ := fibonacci_recursive (n - 1) + fibonacci_recursive (n - 2) } }.
Proof. all: lia. Qed.

(** ** The iterative producer *)

(** The loop state of [fibonacci]: the two accumulators and the output. *)
Record loop_state : Type := mk_loop { acc_a : Z; acc_b : Z; acc_out : stdout }.

(** One iteration: [print(a, end=" ")] then [a, b = b, a + b]. *)
Definition fibonacci_body (i : Z) (st : loop_state) : loop_state :=
  let out := print_end (str (acc_a st)) " " (acc_out st) in
  mk_loop (acc_b st) (acc_a st + acc_b st) out.

Definition fibonacci (n : Z) (out : stdout) : stdout :=
  let st := mk_loop 0 1 out in
  let st := for_in (range n) fibonacci_body st in
  print0 (acc_out st).

(** ** The entry sequence *)

Definition main (out : stdout) : stdout :=
  let out := print "Iterative Fibonacci:" out in
  let out := fibonacci 10 out in
  let out := print "Recursive Fibonacci:" out in
  let out := for_in (range 10)
               (fun i out => print_end (str (fibonacci_recursive i)) " " out) out in
  print0 out.

(** ** Reading the output back *)

Module Output.

(** [s.split(sep)] for a one-character separator: the pieces between the
    occurrences of [sep]; always at least one piece. *)
Fixpoint split (sep : ascii) (s : string) : list string :=
  match s with
  | EmptyString => [EmptyString]
  | String c s' =>
      if Ascii.eqb c sep then EmptyString :: split sep s'
      else match split sep s' with
           | [] => [String c EmptyString]
           | p :: ps => String c p :: ps
           end
  end.

(** Reads a piece of the output as a decimal integer with an optional
    sign; the empty piece is not one. *)
Definition parse_int (s : string) : option Z :=
  match s with
  | EmptyString => None
  | _ => option_map Z.of_int (NilEmpty.int_of_string s)
  end.

(** Whether the character [c] occurs in [s]. *)
Fixpoint has_char (c : ascii) (s : string) : bool :=
  match s with
  | EmptyString => false
  | String a s' => Ascii.eqb a c || has_char c s'
  end.

(** The pieces [xs], each followed by one space: what a loop of
    [print(x, end=" ")] writes. *)
Definition spaced (xs : list string) : string :=
  fold_right (fun x acc => x ++ " " ++ acc) "" xs.

(** The block of section 6 of the specification, line by line. *)
Definition expected_output : string :=
  "Iterative Fibonacci:" ++ newline ++
  "0 1 1 2 3 5 8 13 21 34 " ++ newline ++
  "Recursive Fibonacci:" ++ newline ++
  "0 1 1 2 3 5 8 13 21 34 " ++ newline.

End Output.

Import Output.

(** ** Cost and alphabet of the output *)

(** [fibonacci_recursive] under a budget of nested calls, returning with
    the result the number of times the function is entered, this call
    included: one at a base case, one more than the two recursive calls
    together otherwise. *)
Fixpoint fibonacci_recursive_count (depth : nat) (n : Z) : option (Z * Z) :=
  match depth with
  | O => None
  | S depth' =>
      if n <=? 0 then Some (0, 1)
      else if n =? 1 then Some (1, 1)
      else match fibonacci_recursive_count depth' (n - 1) with
           | None => None
           | Some (x, cx) =>
               match fibonacci_recursive_count depth' (n - 2) with
               | None => None
               | Some (y, cy) => Some (x + y, 1 + cx + cy)
               end
           end
  end.

(** The decimal digits. *)
Definition is_digit (c : ascii) : bool :=
  match c with
  | "0" | "1" | "2" | "3" | "4" | "5" | "6" | "7" | "8" | "9" => true
  | _ => false
  end%char.

(** Whether every character of [s] passes the test [p]. *)
Fixpoint all_chars (p : ascii -> bool) (s : string) : bool :=
  match s with
  | EmptyString => true
  | String c s' => p c && all_chars p s'
  end.

(** The characters of a line of numbers: digits and the space. *)
Definition digit_or_space (c : ascii) : bool := is_digit c || Ascii.eqb c " ".

(** ** The interpreter's limit on printing integers *)

Module Limit.

(** The number of decimal digits of [v], the sign apart. *)
Definition int_digits (v : Z) : nat := String.length (str (Z.abs v)).

(** The interpreter refuses to turn an integer of more than [limit] digits
    into text; a [limit] of [0] switches the check off. *)
Definition fits (limit : nat) (v : Z) : bool :=
  (limit =? 0)%nat || (int_digits v <=? limit)%nat.

(** The limit of an interpreter started without options. *)
Definition default_limit : nat := 4300.

(** [str(v)] under the limit: [None] is the [ValueError] raised for an
    integer with too many digits. *)
Definition str_limited (limit : nat) (v : Z) : option string :=
  if fits limit v then Some (str v) else None.

(** How a piece of code ends: it completes in state [s], or an exception
    leaves it in state [s]. *)
Inductive run (St : Type) : Type :=
| Normal (s : St)
| Raised (s : St).
Arguments Normal {St} s.
Arguments Raised {St} s.

(** The state a run ends in, either way. *)
Definition final {St : Type} (r : run St) : St :=
  match r with Normal s => s | Raised s => s end.

(** A [for] loop whose body can raise: the first iteration that raises
    ends the loop, in the state it was entered with. *)
Fixpoint for_in_run {A St : Type} (xs : list A) (body : A -> St -> option St)
    (s : St) : run St :=
  match xs with
  | [] => Normal s
  | x :: xs' =>
      match body x s with
      | None => Raised s
      | Some s' => for_in_run xs' body s'
      end
  end.

(** The longest prefix of [vs] whose members all fit the limit. *)
Fixpoint fitting_prefix (limit : nat) (vs : list Z) : list Z :=
  match vs with
  | [] => []
  | v :: vs' => if fits limit v then v :: fitting_prefix limit vs' else []
  end.

End Limit.

Import Limit.

(** One iteration of [fibonacci] under the limit: [print(a, end=" ")],
    which raises when [a] has too many digits and writes nothing then,
    followed by [a, b = b, a + b]. *)
Definition fibonacci_body_run (limit : nat) (i : Z) (st : loop_state)
    : option loop_state :=
  match str_limited limit (acc_a st) with
  | None => None
  | Some t =>
      let out := print_end t " " (acc_out st) in
      Some (mk_loop (acc_b st) (acc_a st + acc_b st) out)
  end.

(** [fibonacci] under the limit: the output of a completed call, or the
    output written before the exception, which skips the final [print()]. *)
Definition fibonacci_run (limit : nat) (n : Z) (out : stdout) : run stdout :=
  let st := mk_loop 0 1 out in
  match for_in_run (range n) (fibonacci_body_run limit) st with
  | Normal st => Normal (print0 (acc_out st))
  | Raised st => Raised (acc_out st)
  end.

(** Whether the first [n] values of the evaluator all fit the limit. *)
Definition all_fit (limit : nat) (n : Z) : bool :=
  forallb (fits limit) (map fibonacci_recursive (range n)).

(** The two accumulators of the loop after [k] iterations, without the
    output: used to compute large values. *)
Definition fib_pair (k : nat) : Z * Z :=
  Nat.iter k (fun p => (snd p, fst p + snd p)) (0, 1).

(** * Properties of the recursive evaluator *)

Section Recursive.

(** The body of [fibonacci_recursive], with the tests as the source writes
    them. *)
Lemma fibonacci_recursive_body (n : Z) :
  fibonacci_recursive n =
  if n <=? 0 then 0
  else if n =? 1 then 1
  else fibonacci_recursive (n - 1) + fibonacci_recursive (n - 2).
Proof.
  rewrite fibonacci_recursive_equation_1.
  destruct (Z_le_dec n 0) as [Hle | Hgt]; cbn.
  - destruct (Z.leb_spec n 0); [reflexivity | lia].
  - destruct (Z.leb_spec n 0); [lia |].
    destruct (Z.eq_dec n 1) as [He | Hne]; cbn.
    + destruct (Z.eqb_spec n 1); [reflexivity | lia].
    + destruct (Z.eqb_spec n 1); [lia | reflexivity].
Qed.

Lemma fibonacci_recursive_nonpos (n : Z) : n <= 0 -> fibonacci_recursive n = 0.
Proof.
  intros H. rewrite fibonacci_recursive_body.
  destruct (Z.leb_spec n 0); [reflexivity | lia].
Qed.

Lemma fibonacci_recursive_one : fibonacci_recursive 1 = 1.
Proof. rewrite fibonacci_recursive_body. reflexivity. Qed.

Lemma fibonacci_recursive_step (n : Z) :
  1 < n ->
  fibonacci_recursive n = fibonacci_recursive (n - 1) + fibonacci_recursive (n - 2).
Proof.
  intros H. rewrite fibonacci_recursive_body at 1.
  destruct (Z.leb_spec n 0); [lia |].
  destruct (Z.eqb_spec n 1); [lia | reflexivity].
Qed.

(** Induction along the calls: a property that holds at the base cases and
    passes from [n - 1] and [n - 2] to [n] holds everywhere. *)
Lemma fib_call_ind (P : Z -> Prop) :
  (forall n, n <= 0 -> P n) ->
  P 1 ->
  (forall n, 1 < n -> P (n - 1) -> P (n - 2) -> P n) ->
  forall n, P n.
Proof.
  intros Hneg Hone Hstep n.
  induction n as [n IH] using (well_founded_induction
                                 (wf_inverse_image Z nat lt Z.to_nat lt_wf)).
  destruct (Z_le_dec n 0) as [Hle | Hgt]; [now apply Hneg |].
  destruct (Z.eq_dec n 1) as [-> | Hne]; [exact Hone |].
  apply Hstep; [lia | apply IH; lia | apply IH; lia].
Qed.

Lemma fibonacci_recursive_nonneg (n : Z) : 0 <= fibonacci_recursive n.
Proof.
  induction n as [n Hn | | n Hn IH1 IH2] using fib_call_ind.
  - rewrite fibonacci_recursive_nonpos by assumption. lia.
  - rewrite fibonacci_recursive_one. lia.
  - rewrite fibonacci_recursive_step by assumption. lia.
Qed.

(** A larger budget never loses a result. *)
Lemma fibonacci_recursive_fuel_mono (d1 d2 : nat) (n v : Z) :
  (d1 <= d2)%nat ->
  fibonacci_recursive_fuel d1 n = Some v ->
  fibonacci_recursive_fuel d2 n = Some v.
Proof.
  revert d2 n v.
  induction d1 as [| d1 IH]; intros d2 n v Hle Hrun; [discriminate |].
  destruct d2 as [| d2]; [lia |].
  simpl in *.
  destruct (n <=? 0); [assumption |].
  destruct (n =? 1); [assumption |].
  destruct (fibonacci_recursive_fuel d1 (n - 1)) as [x |] eqn:Hx; [| discriminate].
  destruct (fibonacci_recursive_fuel d1 (n - 2)) as [y |] eqn:Hy; [| discriminate].
  rewrite (IH d2 (n - 1) x), (IH d2 (n - 2) y) by (assumption || lia).
  assumption.
Qed.

(** A budget above [n] is enough, and the result is that of the total
    function. *)
Lemma fibonacci_recursive_fuel_enough (depth : nat) (n : Z) :
  (Z.to_nat n < depth)%nat ->
  fibonacci_recursive_fuel depth n = Some (fibonacci_recursive n).
Proof.
  revert n.
  induction depth as [| depth IH]; intros n Hd; [lia |].
  simpl. rewrite (fibonacci_recursive_body n).
  destruct (Z.leb_spec n 0); [reflexivity |].
  destruct (Z.eqb_spec n 1); [reflexivity |].
  rewrite (IH (n - 1)), (IH (n - 2)) by lia.
  reflexivity.
Qed.

Lemma calls_decrease (m n : Z) : calls m n -> (Z.to_nat m < Z.to_nat n)%nat.
Proof. unfold calls. lia. Qed.

End Recursive.

(** ** The claims about the recursive evaluator *)

(** C2. For every integer [n] the evaluator follows the three-way split in
    the order of the source: [0] when [n <= 0] (negative inputs included),
    otherwise [1] when [n = 1], otherwise the sum of its values at [n - 1]
    and [n - 2].  Under any budget of at least one call the run does the
    same, so a non-positive input gives [Some 0] and never an error. *)
Theorem fibonacci_recursive_case_split (n : Z) (depth : nat) :
  fibonacci_recursive n =
    (if n <=? 0 then 0
     else if n =? 1 then 1
     else fibonacci_recursive (n - 1) + fibonacci_recursive (n - 2))
  /\ fibonacci_recursive_fuel (S depth) n =
    (if n <=? 0 then Some 0
     else if n =? 1 then Some 1
     else match fibonacci_recursive_fuel depth (n - 1),
                fibonacci_recursive_fuel depth (n - 2) with
          | Some x, Some y => Some (x + y)
          | _, _ => None
          end).
Proof.
  split; [apply fibonacci_recursive_body |].
  simpl.
  destruct (n <=? 0); [reflexivity |].
  destruct (n =? 1); [reflexivity |].
  destruct (fibonacci_recursive_fuel depth (n - 1)); [| reflexivity].
  destruct (fibonacci_recursive_fuel depth (n - 2)); reflexivity.
Qed.

(** C5. For every integer [k >= 2] the evaluator satisfies the Fibonacci
    recurrence [f k = f (k - 1) + f (k - 2)]. *)
Theorem fibonacci_recursive_recurrence (k : Z) :
  2 <= k ->
  fibonacci_recursive k = fibonacci_recursive (k - 1) + fibonacci_recursive (k - 2).
Proof. intros Hk. apply fibonacci_recursive_step. lia. Qed.

Lemma fibonacci_recursive_recurrence_at_7 :
  2 <= 7 /\
  fibonacci_recursive 7 = fibonacci_recursive (7 - 1) + fibonacci_recursive (7 - 2).
Proof. split; [lia | apply (fibonacci_recursive_recurrence 7); lia]. Defined.

(** C6. The point values [f 0 = 0], [f 1 = 1], [f (-5) = 0], [f 10 = 55]. *)
Theorem fibonacci_recursive_points :
  fibonacci_recursive 0 = 0 /\
  fibonacci_recursive 1 = 1 /\
  fibonacci_recursive (-5) = 0 /\
  fibonacci_recursive 10 = 55.
Proof. repeat split; vm_compute; reflexivity. Qed.

(** C8. The evaluator terminates on every integer: each call it makes is at
    a strictly smaller argument and is made only above the base cases
    ([1 < n]), the call relation is well founded, and a run whose budget of
    nested calls exceeds [n] returns a value. *)
Theorem fibonacci_recursive_terminates :
  (forall m n : Z, calls m n -> m < n /\ 1 < n) /\
  well_founded calls /\
  (forall (n : Z) (depth : nat),
      (Z.to_nat n < depth)%nat ->
      fibonacci_recursive_fuel depth n = Some (fibonacci_recursive n)).
Proof.
  split; [| split].
  - unfold calls. intros m n H. lia.
  - apply (well_founded_lt_compat Z Z.to_nat). exact calls_decrease.
  - intros n depth. apply fibonacci_recursive_fuel_enough.
Qed.

(** C9. The evaluator's result is never negative, at negative inputs too. *)
Theorem fibonacci_recursive_nonnegative (n : Z) : 0 <= fibonacci_recursive n.
Proof. apply fibonacci_recursive_nonneg. Qed.

(** C10. The evaluator is non-decreasing over the integers:
    [f n <= f (n + 1)] for every [n]. *)
Theorem fibonacci_recursive_monotone (n : Z) :
  fibonacci_recursive n <= fibonacci_recursive (n + 1).
Proof.
  destruct (Z_le_dec n 0) as [Hle | Hgt].
  - rewrite (fibonacci_recursive_nonpos n) by assumption.
    apply fibonacci_recursive_nonneg.
  - rewrite (fibonacci_recursive_step (n + 1)) by lia.
    replace (n + 1 - 1) with n by lia.
    pose proof (fibonacci_recursive_nonneg (n + 1 - 2)). lia.
Qed.

(** * Properties of the output *)

Section Strings.

Lemma append_assoc (a b c : string) : (a ++ b) ++ c = a ++ (b ++ c).
Proof. induction a as [| x a IH]; simpl; [reflexivity | now rewrite IH]. Qed.

Lemma append_nil_r (a : string) : a ++ "" = a.
Proof. induction a as [| x a IH]; simpl; [reflexivity | now rewrite IH]. Qed.

Lemma spaced_app (xs ys : list string) :
  spaced (xs ++ ys)%list = spaced xs ++ spaced ys.
Proof.
  induction xs as [| x xs IH]; simpl; [reflexivity |].
  rewrite IH, !append_assoc. reflexivity.
Qed.

(** With at least one piece, [spaced] is the pieces joined by single spaces
    and one more space at the end. *)
Lemma spaced_concat (xs : list string) :
  xs <> [] -> spaced xs = String.concat " " xs ++ " ".
Proof.
  induction xs as [| x xs IH]; intros Hne; [contradiction |].
  destruct xs as [| y ys].
  - simpl. reflexivity.
  - change (spaced (x :: y :: ys)) with (x ++ " " ++ spaced (y :: ys)).
    change (String.concat " " (x :: y :: ys))
      with (x ++ " " ++ String.concat " " (y :: ys)).
    rewrite IH by discriminate.
    rewrite !append_assoc. reflexivity.
Qed.

Lemma split_piece (s rest : string) :
  has_char " " s = false ->
  split " " (s ++ " " ++ rest) = s :: split " " rest.
Proof.
  change (" " ++ rest) with (String " " rest).
  induction s as [| c s IH]; intros Hs; [reflexivity |].
  simpl in Hs. apply orb_false_elim in Hs. destruct Hs as [Hc Hs].
  simpl. rewrite Hc, (IH Hs). reflexivity.
Qed.

Lemma split_spaced (xs : list string) (rest : string) :
  Forall (fun x => has_char " " x = false) xs ->
  split " " (spaced xs ++ rest) = (xs ++ split " " rest)%list.
Proof.
  induction 1 as [| x xs Hx _ IH]; [reflexivity |].
  change (spaced (x :: xs)) with (x ++ " " ++ spaced xs).
  rewrite !append_assoc, (split_piece _ _ Hx), IH. reflexivity.
Qed.

Lemma uint_no_space (d : Decimal.uint) :
  has_char " " (NilEmpty.string_of_uint d) = false.
Proof. induction d; simpl; auto. Qed.

Lemma str_no_space (v : Z) : has_char " " (str v) = false.
Proof.
  unfold str. destruct (Z.to_int v) as [d | d]; simpl; apply uint_no_space.
Qed.

Lemma str_nonempty (v : Z) : str v <> "".
Proof.
  unfold str. destruct v as [| p | p]; simpl; try discriminate.
  pose proof (DecimalPos.Unsigned.to_uint_nonnil p) as Hp.
  destruct (Pos.to_uint p); [contradiction | discriminate ..].
Qed.

(** A printed integer reads back as itself. *)
Lemma parse_int_str (v : Z) : parse_int (str v) = Some v.
Proof.
  unfold parse_int.
  destruct (str v) as [| c s] eqn:Hs; [now apply str_nonempty in Hs |].
  rewrite <- Hs. unfold str.
  rewrite NilEmpty.isi. simpl. now rewrite DecimalZ.of_to.
Qed.

End Strings.

Section Iterative.

Lemma for_in_cons {A S : Type} (x : A) (xs : list A) (body : A -> S -> S) (s : S) :
  for_in (x :: xs) body s = for_in xs body (body x s).
Proof. reflexivity. Qed.

Lemma range_length (n : Z) : List.length (range n) = Z.to_nat n.
Proof. unfold range. now rewrite length_map, length_seq. Qed.

Lemma range_nonpos (n : Z) : n <= 0 -> range n = [].
Proof. intros H. unfold range. destruct n; try lia; reflexivity. Qed.

Lemma range_nth (n : Z) (i : nat) :
  (i < Z.to_nat n)%nat -> nth_error (range n) i = Some (Z.of_nat i).
Proof.
  intros H. unfold range.
  rewrite nth_error_map, nth_error_seq.
  destruct (Nat.ltb_spec i (Z.to_nat n)); [reflexivity | lia].
Qed.

(** One iteration started on two consecutive values of the evaluator
    prints the first and moves to the next two. *)
Lemma fibonacci_body_step (i : Z) (s : nat) (out : stdout) :
  fibonacci_body i
    (mk_loop (fibonacci_recursive (Z.of_nat s))
             (fibonacci_recursive (Z.of_nat (S s))) out) =
  mk_loop (fibonacci_recursive (Z.of_nat (S s)))
          (fibonacci_recursive (Z.of_nat (S (S s))))
          (out ++ str (fibonacci_recursive (Z.of_nat s)) ++ " ").
Proof.
  unfold fibonacci_body, print_end. cbn [acc_a acc_b acc_out].
  f_equal.
  rewrite (fibonacci_recursive_step (Z.of_nat (S (S s)))) by lia.
  replace (Z.of_nat (S (S s)) - 1) with (Z.of_nat (S s)) by lia.
  replace (Z.of_nat (S (S s)) - 2) with (Z.of_nat s) by lia.
  lia.
Qed.

(** The loop invariant: after the iterations over [l], started at index
    [s], the accumulators hold the evaluator's values at the next two
    indices and the output has grown by the values passed over. *)
Lemma fibonacci_loop (l : list Z) (s : nat) (out : stdout) :
  for_in l fibonacci_body
    (mk_loop (fibonacci_recursive (Z.of_nat s))
             (fibonacci_recursive (Z.of_nat (S s))) out) =
  mk_loop (fibonacci_recursive (Z.of_nat (s + List.length l)))
          (fibonacci_recursive (Z.of_nat (S (s + List.length l))))
          (out ++ spaced (map (fun k => str (fibonacci_recursive k))
                              (map Z.of_nat (seq s (List.length l))))).
Proof.
  revert s out.
  induction l as [| x l IH]; intros s out.
  - cbn [for_in fold_left List.length seq map spaced fold_right].
    now rewrite Nat.add_0_r, append_nil_r.
  - rewrite for_in_cons, fibonacci_body_step, (IH (S s)).
    cbn [List.length seq map spaced fold_right].
    rewrite Nat.add_succ_r, !append_assoc. reflexivity.
Qed.

(** What [fibonacci n] writes: the evaluator's values at [0 .. n-1], each
    followed by a space, then a newline. *)
Lemma fibonacci_writes (n : Z) (out : stdout) :
  fibonacci n out =
  out ++ spaced (map (fun k => str (fibonacci_recursive k)) (range n)) ++ newline.
Proof.
  unfold fibonacci.
  assert (E : mk_loop 0 1 out =
              mk_loop (fibonacci_recursive (Z.of_nat 0))
                      (fibonacci_recursive (Z.of_nat 1)) out).
  { cbn [Z.of_nat Pos.of_succ_nat].
    now rewrite fibonacci_recursive_one, fibonacci_recursive_nonpos by lia. }
  rewrite E, fibonacci_loop. cbn [acc_out].
  rewrite range_length. fold (range n).
  unfold print0, print, print_end. cbn [append].
  now rewrite append_assoc.
Qed.

Lemma for_in_print (g : Z -> string) (l : list Z) (out : stdout) :
  for_in l (fun i o => print_end (g i) " " o) out = out ++ spaced (map g l).
Proof.
  revert out.
  induction l as [| x l IH]; intros out.
  - cbn. now rewrite append_nil_r.
  - rewrite for_in_cons, IH. unfold print_end.
    cbn [map spaced fold_right]. now rewrite !append_assoc.
Qed.

Lemma strs_no_space (vs : list Z) :
  Forall (fun x => has_char " " x = false) (map str vs).
Proof. apply Forall_map, Forall_forall. intros v _. apply str_no_space. Qed.

(** The output of [fibonacci n], cut at the spaces. *)
Lemma fibonacci_split (n : Z) :
  split " " (fibonacci n "") =
  (map str (map fibonacci_recursive (range n)) ++ [newline])%list.
Proof.
  rewrite fibonacci_writes. cbn [append].
  rewrite <- (map_map fibonacci_recursive str).
  now rewrite split_spaced by apply strs_no_space.
Qed.

End Iterative.

(** ** The claims about the iterative producer and the entry sequence *)

(** C1. Run on an empty standard output, the entry sequence writes exactly
    the four lines of section 6: the two headings, each followed by the
    line of the first ten values with a space after every value, the last
    one included; run after earlier output, it appends those lines. *)
Theorem main_output :
  main "" = expected_output /\
  (forall out : stdout, main out = out ++ expected_output).
Proof.
  assert (H : forall out : stdout, main out = out ++ expected_output).
  { intros out. unfold main.
    rewrite for_in_print, fibonacci_writes.
    unfold print0, print, print_end.
    rewrite !append_assoc. f_equal. }
  split; [apply (H "") | exact H].
Qed.

(** Without the limit: for [n >= 0] the producer writes exactly [n]
    integers separated by single spaces, then a space and a newline; for
    [n = 0] the newline alone. *)
Lemma fibonacci_unlimited_shape (n : Z) (out : stdout) :
  0 <= n ->
  exists vs : list Z,
    Z.of_nat (List.length vs) = n /\
    fibonacci n out =
      out ++ String.concat " " (map str vs)
          ++ (if n =? 0 then "" else " ") ++ newline /\
    split " " (fibonacci n "") = (map str vs ++ [newline])%list /\
    map parse_int (map str vs) = map Some vs /\
    (n = 0 -> fibonacci n out = out ++ newline).
Proof.
  intros Hn.
  exists (map fibonacci_recursive (range n)).
  assert (Hlen : Z.of_nat (List.length (map fibonacci_recursive (range n))) = n).
  { rewrite length_map, range_length. lia. }
  split; [exact Hlen |].
  split; [| split; [apply fibonacci_split | split]].
  - rewrite fibonacci_writes, <- (map_map fibonacci_recursive str).
    destruct (Z.eqb_spec n 0) as [-> | Hne]; [reflexivity |].
    rewrite spaced_concat, !append_assoc; [reflexivity |].
    intros Hnil. apply map_eq_nil in Hnil.
    rewrite Hnil in Hlen. cbn in Hlen. lia.
  - rewrite map_map. apply map_ext. intros v. apply parse_int_str.
  - intros ->. reflexivity.
Qed.

(** C7. For every negative [n] the producer's loop has nothing to run
    over: it performs no iteration, prints no number and writes only the
    newline, exactly as for [n = 0]; in particular there is a result. *)
Theorem fibonacci_negative (n : Z) (out : stdout) :
  n < 0 ->
  range n = [] /\
  for_in (range n) fibonacci_body (mk_loop 0 1 out) = mk_loop 0 1 out /\
  fibonacci n out = out ++ newline /\
  fibonacci n out = fibonacci 0 out.
Proof.
  intros Hn.
  assert (Hr : range n = []) by (apply range_nonpos; lia).
  unfold fibonacci. rewrite Hr.
  repeat split; reflexivity.
Qed.

Lemma fibonacci_negative_at_minus_3 :
  -3 < 0 /\
  range (-3) = [] /\
  for_in (range (-3)) fibonacci_body (mk_loop 0 1 "x") = mk_loop 0 1 "x" /\
  fibonacci (-3) "x" = "x" ++ newline /\
  fibonacci (-3) "x" = fibonacci 0 "x".
Proof. split; [lia | apply (fibonacci_negative (-3) "x"); lia]. Defined.

(** * Concrete runs *)

Example fibonacci_3 : fibonacci 3 "" = "0 1 1 " ++ newline.
Proof. reflexivity. Qed.

Example fibonacci_0 : fibonacci 0 "" = newline.
Proof. reflexivity. Qed.

Example fibonacci_10_pieces :
  split " " (fibonacci 10 "") =
  ["0"; "1"; "1"; "2"; "3"; "5"; "8"; "13"; "21"; "34"; newline].
Proof. vm_compute. reflexivity. Qed.

Example fibonacci_recursive_fuel_10 :
  fibonacci_recursive_fuel 10 10 = Some 55 /\
  fibonacci_recursive_fuel 9 10 = None.
Proof. split; vm_compute; reflexivity. Qed.

Example str_samples : str 0 = "0" /\ str 34 = "34" /\ str (-5) = "-5".
Proof. repeat split. Qed.

(** * Further properties of the recursive evaluator *)

Section RecursiveMore.

Lemma fibonacci_recursive_pos (n : Z) : 1 <= n -> 1 <= fibonacci_recursive n.
Proof.
  induction n as [n Hn | | n Hn IH1 IH2] using fib_call_ind; intros H.
  - lia.
  - rewrite fibonacci_recursive_one. lia.
  - rewrite fibonacci_recursive_step by assumption.
    pose proof (fibonacci_recursive_nonneg (n - 2)).
    specialize (IH1 ltac:(lia)). lia.
Qed.

Lemma fibonacci_recursive_next (n : Z) :
  0 <= n ->
  fibonacci_recursive (n + 2) = fibonacci_recursive (n + 1) + fibonacci_recursive n.
Proof.
  intros H. rewrite (fibonacci_recursive_step (n + 2)) by lia.
  now replace (n + 2 - 1) with (n + 1) by lia; replace (n + 2 - 2) with n by lia.
Qed.

Lemma fibonacci_recursive_le_next (n : Z) :
  fibonacci_recursive n <= fibonacci_recursive (n + 1).
Proof.
  destruct (Z_le_dec n 0) as [Hle | Hgt].
  - rewrite (fibonacci_recursive_nonpos n) by assumption.
    apply fibonacci_recursive_nonneg.
  - replace (n + 1) with (n - 1 + 2) by lia.
    rewrite fibonacci_recursive_next by lia.
    replace (n - 1 + 1) with n by lia.
    pose proof (fibonacci_recursive_nonneg (n - 1)). lia.
Qed.

Lemma fibonacci_recursive_double (n : Z) :
  2 * fibonacci_recursive n <= fibonacci_recursive (n + 2).
Proof.
  destruct (Z_lt_dec n 0) as [Hneg | Hpos].
  - rewrite (fibonacci_recursive_nonpos n) by lia.
    pose proof (fibonacci_recursive_nonneg (n + 2)). lia.
  - rewrite fibonacci_recursive_next by lia.
    pose proof (fibonacci_recursive_le_next n). lia.
Qed.

Lemma fibonacci_recursive_pow (k : Z) :
  0 <= k -> 2 ^ k <= fibonacci_recursive (2 * k + 1).
Proof.
  revert k. apply natlike_ind.
  - cbn. rewrite fibonacci_recursive_one. lia.
  - intros k Hk IH.
    rewrite Z.pow_succ_r by assumption.
    replace (2 * Z.succ k + 1) with (2 * k + 1 + 2) by lia.
    pose proof (fibonacci_recursive_double (2 * k + 1)). lia.
Qed.

Lemma fibonacci_recursive_count_enough (depth : nat) (n : Z) :
  (Z.to_nat n < depth)%nat ->
  fibonacci_recursive_count depth n =
  Some (fibonacci_recursive n, 2 * fibonacci_recursive (Z.max 0 n + 1) - 1).
Proof.
  revert n.
  induction depth as [| depth IH]; intros n Hd; [lia |].
  cbn [fibonacci_recursive_count].
  destruct (Z.leb_spec n 0) as [Hle | Hgt].
  - rewrite Z.max_l by lia. cbn [Z.add].
    now rewrite fibonacci_recursive_one, fibonacci_recursive_nonpos.
  - destruct (Z.eqb_spec n 1) as [-> | Hne].
    + reflexivity.
    + rewrite (IH (n - 1)), (IH (n - 2)) by lia.
      rewrite !Z.max_r by lia.
      replace (n - 1 + 1) with n by lia.
      replace (n - 2 + 1) with (n - 1) by lia.
      rewrite (fibonacci_recursive_step n) by lia.
      replace (n + 1) with (n - 1 + 2) by lia.
      rewrite (fibonacci_recursive_next (n - 1)) by lia.
      replace (n - 1 + 1) with n by lia.
      rewrite (fibonacci_recursive_step n) by lia.
      f_equal. f_equal. lia.
Qed.

End RecursiveMore.

(** X1. A run of the evaluator under a budget of nested calls returns
    exactly when the budget is at least [n] (at least one for [n <= 1]),
    and then returns the evaluator's value; below that it fails. *)
Theorem fibonacci_recursive_fuel_exact (depth : nat) (n : Z) :
  fibonacci_recursive_fuel depth n =
  if (Nat.max 1 (Z.to_nat n) <=? depth)%nat
  then Some (fibonacci_recursive n) else None.
Proof.
  revert n.
  induction depth as [| depth IH]; intros n.
  - destruct (Nat.leb_spec (Nat.max 1 (Z.to_nat n)) 0); [lia | reflexivity].
  - cbn [fibonacci_recursive_fuel].
    rewrite (fibonacci_recursive_body n).
    destruct (Z.leb_spec n 0) as [Hle | Hgt].
    { destruct (Nat.leb_spec (Nat.max 1 (Z.to_nat n)) (S depth)); [reflexivity | lia]. }
    destruct (Z.eqb_spec n 1) as [-> | Hne].
    { destruct (Nat.leb_spec (Nat.max 1 (Z.to_nat 1)) (S depth)); [reflexivity | lia]. }
    rewrite (IH (n - 1)), (IH (n - 2)).
    destruct (Nat.leb_spec (Nat.max 1 (Z.to_nat n)) (S depth)) as [Hok | Hlow].
    + destruct (Nat.leb_spec (Nat.max 1 (Z.to_nat (n - 1))) depth); [| lia].
      destruct (Nat.leb_spec (Nat.max 1 (Z.to_nat (n - 2))) depth); [| lia].
      reflexivity.
    + destruct (Nat.leb_spec (Nat.max 1 (Z.to_nat (n - 1))) depth); [lia |].
      reflexivity.
Qed.

(** X2. With a budget above [n], the counting run returns the evaluator's
    value and enters the function [2 * f (n + 1) - 1] times for [n >= 0]
    (once for a negative [n]): nothing is remembered between calls. *)
Theorem fibonacci_recursive_count_exact (depth : nat) (n : Z) :
  (Z.to_nat n < depth)%nat ->
  fibonacci_recursive_count depth n =
  Some (fibonacci_recursive n, 2 * fibonacci_recursive (Z.max 0 n + 1) - 1).
Proof. apply fibonacci_recursive_count_enough. Qed.

Lemma fibonacci_recursive_count_exact_at_10 :
  (Z.to_nat 10 < 11)%nat /\
  fibonacci_recursive_count 11 10 =
  Some (fibonacci_recursive 10, 2 * fibonacci_recursive (Z.max 0 10 + 1) - 1).
Proof.
  split; [vm_compute; lia | apply (fibonacci_recursive_count_exact 11 10); vm_compute; lia].
Defined.

(** X3. The number of calls grows exponentially: at an even input [2 * k]
    the function is entered at least [2 ^ (k + 1) - 1] times. *)
Theorem fibonacci_recursive_count_exponential (depth : nat) (k : Z) :
  0 <= k ->
  (Z.to_nat (2 * k) < depth)%nat ->
  exists v c : Z,
    fibonacci_recursive_count depth (2 * k) = Some (v, c) /\
    2 ^ (k + 1) - 1 <= c.
Proof.
  intros Hk Hd.
  eexists _, _. split; [now apply fibonacci_recursive_count_enough |].
  rewrite Z.max_r by lia.
  pose proof (fibonacci_recursive_pow k Hk).
  rewrite Z.pow_add_r, Z.pow_1_r by lia. lia.
Qed.

Lemma fibonacci_recursive_count_exponential_at_3 :
  0 <= 3 /\ (Z.to_nat (2 * 3) < 7)%nat /\
  exists v c : Z,
    fibonacci_recursive_count 7 (2 * 3) = Some (v, c) /\
    2 ^ (3 + 1) - 1 <= c.
Proof.
  split; [lia | split; [vm_compute; lia |]].
  apply (fibonacci_recursive_count_exponential 7 3); [lia | vm_compute; lia].
Defined.

(** X4. The evaluator returns [0] exactly on the non-positive inputs. *)
Theorem fibonacci_recursive_zero_iff (n : Z) :
  fibonacci_recursive n = 0 <-> n <= 0.
Proof.
  split.
  - intros H. destruct (Z_le_dec n 0) as [Hle | Hgt]; [assumption |].
    pose proof (fibonacci_recursive_pos n ltac:(lia)). lia.
  - apply fibonacci_recursive_nonpos.
Qed.

(** X5. From [2] on the evaluator is strictly increasing:
    [f n < f (n + 1)] for [n >= 2]. *)
Theorem fibonacci_recursive_strict (n : Z) :
  2 <= n -> fibonacci_recursive n < fibonacci_recursive (n + 1).
Proof.
  intros H.
  replace (n + 1) with (n - 1 + 2) by lia.
  rewrite fibonacci_recursive_next by lia.
  replace (n - 1 + 1) with n by lia.
  pose proof (fibonacci_recursive_pos (n - 1) ltac:(lia)). lia.
Qed.

Lemma fibonacci_recursive_strict_at_2 :
  2 <= 2 /\ fibonacci_recursive 2 < fibonacci_recursive (2 + 1).
Proof. split; [lia | apply (fibonacci_recursive_strict 2); lia]. Defined.

(** X6. For [n >= 1] the evaluator's value is at most [2 ^ (n - 1)]. *)
Theorem fibonacci_recursive_upper (n : Z) :
  1 <= n -> fibonacci_recursive n <= 2 ^ (n - 1).
Proof.
  intros H.
  replace n with (Z.succ (n - 1)) at 1 by lia.
  assert (Hm : 0 <= n - 1) by lia.
  generalize dependent (n - 1). clear n H.
  apply (natlike_ind (fun m => fibonacci_recursive (Z.succ m) <= 2 ^ m)).
  - cbn. rewrite fibonacci_recursive_one. lia.
  - intros m Hm IH.
    rewrite Z.pow_succ_r by assumption.
    replace (Z.succ (Z.succ m)) with (m + 2) by lia.
    rewrite fibonacci_recursive_next by lia.
    replace (m + 1) with (Z.succ m) by lia.
    pose proof (fibonacci_recursive_le_next m).
    replace (m + 1) with (Z.succ m) in * by lia. lia.
Qed.

Lemma fibonacci_recursive_upper_at_10 :
  1 <= 10 /\ fibonacci_recursive 10 <= 2 ^ (10 - 1).
Proof. split; [lia | apply (fibonacci_recursive_upper 10); lia]. Defined.

(** * Further properties of the iterative producer *)

Section IterativeMore.

(** The whole loop of [fibonacci n], from its initial state. *)
Lemma fibonacci_loop_from_start (n : Z) (out : stdout) :
  for_in (range n) fibonacci_body (mk_loop 0 1 out) =
  mk_loop (fibonacci_recursive (Z.of_nat (Z.to_nat n)))
          (fibonacci_recursive (Z.of_nat (S (Z.to_nat n))))
          (out ++ spaced (map (fun k => str (fibonacci_recursive k)) (range n))).
Proof.
  assert (E : mk_loop 0 1 out =
              mk_loop (fibonacci_recursive (Z.of_nat 0))
                      (fibonacci_recursive (Z.of_nat 1)) out).
  { cbn [Z.of_nat Pos.of_succ_nat].
    now rewrite fibonacci_recursive_one, fibonacci_recursive_nonpos by lia. }
  rewrite E, fibonacci_loop, range_length. reflexivity.
Qed.

Lemma range_succ (n : Z) : 0 <= n -> range (n + 1) = (range n ++ [n])%list.
Proof.
  intros H. unfold range.
  replace (Z.to_nat (n + 1)) with (S (Z.to_nat n)) by lia.
  rewrite seq_S, map_app. cbn [map Nat.add].
  now rewrite Z2Nat.id by assumption.
Qed.

Lemma all_chars_app (p : ascii -> bool) (a b : string) :
  all_chars p (a ++ b) = all_chars p a && all_chars p b.
Proof.
  induction a as [| c a IH]; cbn; [reflexivity |].
  now rewrite IH, andb_assoc.
Qed.

Lemma all_chars_absent (p : ascii -> bool) (c : ascii) (s : string) :
  p c = false -> all_chars p s = true -> has_char c s = false.
Proof.
  intros Hc. induction s as [| a s IH]; cbn; [reflexivity |].
  intros H. apply andb_prop in H. destruct H as [Ha Hs].
  rewrite (IH Hs), orb_false_r.
  destruct (Ascii.eqb_spec a c) as [-> | _]; [congruence | reflexivity].
Qed.

Lemma uint_digits (d : Decimal.uint) :
  all_chars is_digit (NilEmpty.string_of_uint d) = true.
Proof. induction d; cbn; auto. Qed.

Lemma str_digits (v : Z) : 0 <= v -> all_chars is_digit (str v) = true.
Proof.
  intros H. unfold str.
  destruct v as [| p | p]; [reflexivity | apply uint_digits | lia].
Qed.

Lemma all_chars_weaken (p q : ascii -> bool) (s : string) :
  (forall c, p c = true -> q c = true) ->
  all_chars p s = true -> all_chars q s = true.
Proof.
  intros Hpq. induction s as [| a s IH]; cbn; [reflexivity |].
  intros H. apply andb_prop in H. destruct H as [Ha Hs].
  now rewrite (Hpq a Ha), (IH Hs).
Qed.

Lemma spaced_digits (vs : list Z) :
  Forall (fun v => 0 <= v) vs ->
  all_chars digit_or_space (spaced (map str vs)) = true.
Proof.
  induction 1 as [| v vs Hv _ IH]; [reflexivity |].
  change (spaced (map str (v :: vs))) with (str v ++ " " ++ spaced (map str vs)).
  rewrite all_chars_app, all_chars_app, IH.
  rewrite (all_chars_weaken is_digit digit_or_space (str v)).
  - reflexivity.
  - intros c Hc. unfold digit_or_space. now rewrite Hc.
  - now apply str_digits.
Qed.

End IterativeMore.

(** X7. When the loop of the producer ends, for [n >= 0], its first
    accumulator holds the evaluator's value at [n] and the second the
    value at [n + 1]. *)
Theorem fibonacci_loop_accumulators (n : Z) (out : stdout) :
  0 <= n ->
  acc_a (for_in (range n) fibonacci_body (mk_loop 0 1 out)) = fibonacci_recursive n /\
  acc_b (for_in (range n) fibonacci_body (mk_loop 0 1 out)) = fibonacci_recursive (n + 1).
Proof.
  intros H. rewrite fibonacci_loop_from_start. cbn [acc_a acc_b].
  rewrite Nat2Z.inj_succ, Z2Nat.id by assumption.
  split; [reflexivity | f_equal; lia].
Qed.

Lemma fibonacci_loop_accumulators_at_10 :
  0 <= 10 /\
  acc_a (for_in (range 10) fibonacci_body (mk_loop 0 1 "")) = fibonacci_recursive 10 /\
  acc_b (for_in (range 10) fibonacci_body (mk_loop 0 1 "")) = fibonacci_recursive (10 + 1).
Proof. split; [lia | apply (fibonacci_loop_accumulators 10 ""); lia]. Defined.


(** * The producer under the interpreter's digit limit *)

Section Limited.

Variable limit : nat.

Lemma fibonacci_body_run_fits (i : Z) (st : loop_state) :
  fits limit (acc_a st) = true ->
  fibonacci_body_run limit i st = Some (fibonacci_body i st).
Proof.
  intros H. unfold fibonacci_body_run, str_limited. now rewrite H.
Qed.

Lemma fibonacci_body_run_raises (i : Z) (st : loop_state) :
  fits limit (acc_a st) = false -> fibonacci_body_run limit i st = None.
Proof.
  intros H. unfold fibonacci_body_run, str_limited. now rewrite H.
Qed.

Lemma fitting_prefix_all (vs : list Z) :
  forallb (fits limit) vs = true -> fitting_prefix limit vs = vs.
Proof.
  induction vs as [| v vs IH]; cbn; [reflexivity |].
  intros H. apply andb_prop in H. destruct H as [Hv Hvs].
  now rewrite Hv, IH.
Qed.

Lemma fitting_prefix_app (us vs : list Z) :
  forallb (fits limit) us = true ->
  fitting_prefix limit (us ++ vs) = (us ++ fitting_prefix limit vs)%list.
Proof.
  induction us as [| u us IH]; cbn; [reflexivity |].
  intros H. apply andb_prop in H. destruct H as [Hu Hus].
  now rewrite Hu, IH.
Qed.

(** The prefix stops at or before any value that does not fit. *)
Lemma fitting_prefix_short (vs : list Z) (j : nat) (v : Z) :
  nth_error vs j = Some v -> fits limit v = false ->
  (List.length (fitting_prefix limit vs) <= j)%nat.
Proof.
  revert j.
  induction vs as [| u vs IH]; intros j Hj Hv; [cbn; lia |].
  cbn [fitting_prefix].
  destruct j as [| j]; cbn in Hj.
  - injection Hj as ->. rewrite Hv. cbn. lia.
  - destruct (fits limit u); cbn; [| lia].
    specialize (IH j Hj Hv). lia.
Qed.

Lemma fitting_prefix_nonneg (vs : list Z) :
  Forall (fun v => 0 <= v) vs -> Forall (fun v => 0 <= v) (fitting_prefix limit vs).
Proof.
  induction 1 as [| v vs Hv _ IH]; cbn; [constructor |].
  destruct (fits limit v); now constructor.
Qed.

(** The loop under the limit, started at index [s]: it completes like the
    loop without the limit when every value passed over fits, and otherwise
    stops at the first value that does not, with the earlier ones
    written. *)
Lemma fibonacci_loop_run (l : list Z) (s : nat) (out : stdout) :
  for_in_run l (fibonacci_body_run limit)
    (mk_loop (fibonacci_recursive (Z.of_nat s))
             (fibonacci_recursive (Z.of_nat (S s))) out) =
  let vals := map fibonacci_recursive (map Z.of_nat (seq s (List.length l))) in
  let p := fitting_prefix limit vals in
  if forallb (fits limit) vals
  then Normal (for_in l fibonacci_body
                 (mk_loop (fibonacci_recursive (Z.of_nat s))
                          (fibonacci_recursive (Z.of_nat (S s))) out))
  else Raised (mk_loop (fibonacci_recursive (Z.of_nat (s + List.length p)))
                       (fibonacci_recursive (Z.of_nat (S (s + List.length p))))
                       (out ++ spaced (map str p))).
Proof.
  revert s out.
  induction l as [| x l IH]; intros s out; [reflexivity |].
  cbn [for_in_run List.length seq map forallb fitting_prefix].
  destruct (fits limit (fibonacci_recursive (Z.of_nat s))) eqn:Hfit.
  - rewrite fibonacci_body_run_fits by exact Hfit.
    rewrite fibonacci_body_step, (IH (S s)).
    cbn zeta. cbn [andb].
    destruct (forallb (fits limit)
                (map fibonacci_recursive (map Z.of_nat (seq (S s) (List.length l))))).
    + now rewrite for_in_cons, fibonacci_body_step.
    + cbn [List.length map spaced fold_right].
      rewrite Nat.add_succ_r, !append_assoc. reflexivity.
  - rewrite fibonacci_body_run_raises by exact Hfit.
    cbn. now rewrite Nat.add_0_r, append_nil_r.
Qed.

(** What a call of the producer does under the limit. *)
Lemma fibonacci_run_cases (n : Z) (out : stdout) :
  fibonacci_run limit n out =
  if all_fit limit n
  then Normal (fibonacci n out)
  else Raised (out ++ spaced (map str (fitting_prefix limit
                                         (map fibonacci_recursive (range n))))).
Proof.
  unfold fibonacci_run, fibonacci, all_fit.
  assert (E : mk_loop 0 1 out =
              mk_loop (fibonacci_recursive (Z.of_nat 0))
                      (fibonacci_recursive (Z.of_nat 1)) out).
  { cbn [Z.of_nat Pos.of_succ_nat].
    now rewrite fibonacci_recursive_one, fibonacci_recursive_nonpos by lia. }
  rewrite E, fibonacci_loop_run, range_length. cbn zeta. fold (range n).
  destruct (forallb (fits limit) (map fibonacci_recursive (range n)));
    reflexivity.
Qed.

(** The output of a call, completed or not: the values that fit, each
    followed by a space, and the newline when the call completes. *)
Lemma fibonacci_run_output (n : Z) (out : stdout) :
  final (fibonacci_run limit n out) =
  out ++ spaced (map str (fitting_prefix limit (map fibonacci_recursive (range n))))
      ++ (if all_fit limit n then newline else "").
Proof.
  rewrite fibonacci_run_cases. unfold all_fit.
  destruct (forallb (fits limit) (map fibonacci_recursive (range n))) eqn:Hall.
  - cbn [final]. rewrite fibonacci_writes, fitting_prefix_all by exact Hall.
    now rewrite map_map.
  - cbn [final]. now rewrite append_nil_r.
Qed.

Lemma all_fit_le (m n : Z) : m <= n -> all_fit limit n = true -> all_fit limit m = true.
Proof.
  unfold all_fit. intros Hmn Hn.
  rewrite forallb_forall in *. intros v Hv. apply Hn.
  rewrite in_map_iff in *. destruct Hv as (k & <- & Hk).
  exists k. split; [reflexivity |].
  unfold range in *. rewrite in_map_iff in *. destruct Hk as (i & <- & Hi).
  exists i. split; [reflexivity |]. rewrite in_seq in *. lia.
Qed.

Lemma all_fit_value (n k : Z) :
  0 <= k < n -> all_fit limit n = true -> fits limit (fibonacci_recursive k) = true.
Proof.
  unfold all_fit. intros Hk Hn.
  rewrite forallb_forall in Hn. apply Hn.
  apply in_map. unfold range. rewrite in_map_iff.
  exists (Z.to_nat k). split; [lia | rewrite in_seq; lia].
Qed.

End Limited.

Lemma fib_pair_values (k : nat) :
  fib_pair k = (fibonacci_recursive (Z.of_nat k), fibonacci_recursive (Z.of_nat (S k))).
Proof.
  induction k as [| k IH].
  - cbn. now rewrite fibonacci_recursive_one, fibonacci_recursive_nonpos by lia.
  - change (fib_pair (S k))
      with ((fun p : Z * Z => (snd p, fst p + snd p)) (fib_pair k)).
    rewrite IH. cbn [fst snd]. f_equal.
    rewrite (fibonacci_recursive_step (Z.of_nat (S (S k)))) by lia.
    replace (Z.of_nat (S (S k)) - 1) with (Z.of_nat (S k)) by lia.
    replace (Z.of_nat (S (S k)) - 2) with (Z.of_nat k) by lia.
    lia.
Qed.

(** The value at index 20578 is the first with 4301 digits: it does not fit
    the default limit. *)
Lemma value_20578_too_long :
  fits default_limit (fibonacci_recursive 20578) = false.
Proof.
  replace 20578 with (Z.of_nat (Z.to_nat 20578)) by (apply Z2Nat.id; lia).
  replace (fibonacci_recursive (Z.of_nat (Z.to_nat 20578)))
    with (fst (fib_pair (Z.to_nat 20578)))
    by (now rewrite fib_pair_values).
  vm_compute. reflexivity.
Qed.

Lemma all_fit_20579 : all_fit default_limit 20579 = false.
Proof.
  destruct (all_fit default_limit 20579) eqn:H; [| reflexivity].
  apply (all_fit_value default_limit 20579 20578) in H; [| lia].
  now rewrite value_20578_too_long in H.
Qed.

Lemma range_split (m n : Z) :
  0 <= m <= n ->
  range n = (range m ++ map Z.of_nat (seq (Z.to_nat m) (Z.to_nat (n - m))))%list.
Proof.
  intros H. unfold range.
  replace (Z.to_nat n) with (Z.to_nat m + Z.to_nat (n - m))%nat by lia.
  now rewrite seq_app, map_app.
Qed.


Lemma split_empty (sep : ascii) : split sep "" = [""].
Proof. reflexivity. Qed.

Lemma nth_error_single {A : Type} (x y : A) (m : nat) :
  nth_error [x] m = Some y -> y = x.
Proof. destruct m as [| [| m]]; cbn; congruence. Qed.

(** ** The claims about the producer's output, under the limit *)

(** C3, amended. For every integer [n >= 0] whose first [n] values all fit
    the interpreter's digit limit (every [n] when the limit is off), the
    producer completes and writes exactly [n] integers separated by single
    spaces, then a space and a newline; for [n = 0] the newline alone.  Cut
    at the spaces, the output is those [n] integers and the final
    newline. *)
Theorem fibonacci_run_output_shape (limit : nat) (n : Z) (out : stdout) :
  0 <= n ->
  all_fit limit n = true ->
  exists vs : list Z,
    Z.of_nat (List.length vs) = n /\
    fibonacci_run limit n out =
      Normal (out ++ String.concat " " (map str vs)
                  ++ (if n =? 0 then "" else " ") ++ newline) /\
    split " " (final (fibonacci_run limit n "")) = (map str vs ++ [newline])%list /\
    map parse_int (map str vs) = map Some vs /\
    (n = 0 -> fibonacci_run limit n out = Normal (out ++ newline)).
Proof.
  intros Hn Hall.
  destruct (fibonacci_unlimited_shape n out Hn) as (vs & Hlen & Hout & Hsplit & Hread & Hzero).
  exists vs. rewrite !fibonacci_run_cases, Hall. cbn [final].
  repeat split; try assumption.
  - now rewrite Hout.
  - intros H0. now rewrite (Hzero H0).
Qed.

Lemma fibonacci_run_output_shape_at_3 :
  0 <= 3 /\ all_fit default_limit 3 = true /\
  exists vs : list Z,
    Z.of_nat (List.length vs) = 3 /\
    fibonacci_run default_limit 3 "" =
      Normal ("" ++ String.concat " " (map str vs)
                 ++ (if 3 =? 0 then "" else " ") ++ newline) /\
    split " " (final (fibonacci_run default_limit 3 "")) = (map str vs ++ [newline])%list /\
    map parse_int (map str vs) = map Some vs /\
    (3 = 0 -> fibonacci_run default_limit 3 "" = Normal ("" ++ newline)).
Proof.
  split; [lia | split; [vm_compute; reflexivity |]].
  apply (fibonacci_run_output_shape default_limit 3 "");
    [lia | vm_compute; reflexivity].
Defined.

(** C3 as stated fails: under the default limit the call with [n = 20579]
    raises at the value of index 20578, so it completes with no output of
    the claimed shape, and the newline is never written. *)
Lemma fibonacci_run_20579_raises :
  0 <= 20579 /\
  (exists o : stdout, fibonacci_run default_limit 20579 "" = Raised o) /\
  ~ (exists vs : list Z,
        fibonacci_run default_limit 20579 "" =
        Normal ("" ++ String.concat " " (map str vs) ++ " " ++ newline)).
Proof.
  rewrite fibonacci_run_cases, all_fit_20579.
  split; [lia | split].
  - eexists. reflexivity.
  - intros (vs & H). discriminate H.
Qed.

(** C4, amended. For every integer [n >= 1] and every [k] with
    [0 <= k < n] such that the values of index [0] to [k] fit the
    interpreter's digit limit, the [k]-th value (counting from 0) that the
    producer prints for [n] is the evaluator's result at [k]: the [k]-th
    piece of the output is that result in decimal, and reads back as it;
    this holds whether or not the call later raises. *)
Theorem fibonacci_run_agrees_with_recursive (limit : nat) (n k : Z) :
  1 <= n ->
  0 <= k < n ->
  all_fit limit (k + 1) = true ->
  exists tok : string,
    nth_error (split " " (final (fibonacci_run limit n ""))) (Z.to_nat k) = Some tok /\
    tok = str (fibonacci_recursive k) /\
    parse_int tok = Some (fibonacci_recursive k).
Proof.
  intros Hn Hk Hfit.
  exists (str (fibonacci_recursive k)).
  split; [| split; [reflexivity | apply parse_int_str]].
  rewrite fibonacci_run_output. cbn [append].
  rewrite (range_split (k + 1) n) by lia.
  rewrite map_app, fitting_prefix_app by exact Hfit.
  rewrite map_app, spaced_app, append_assoc.
  rewrite split_spaced by apply strs_no_space.
  rewrite nth_error_app1 by (rewrite !length_map, range_length; lia).
  rewrite !nth_error_map, range_nth by lia.
  cbn [option_map]. now rewrite Z2Nat.id by lia.
Qed.

Lemma fibonacci_run_agrees_with_recursive_at_10_6 :
  1 <= 10 /\ 0 <= 6 < 10 /\ all_fit default_limit (6 + 1) = true /\
  exists tok : string,
    nth_error (split " " (final (fibonacci_run default_limit 10 ""))) (Z.to_nat 6)
      = Some tok /\
    tok = str (fibonacci_recursive 6) /\
    parse_int tok = Some (fibonacci_recursive 6).
Proof.
  split; [lia | split; [lia | split; [vm_compute; reflexivity |]]].
  apply (fibonacci_run_agrees_with_recursive default_limit 10 6);
    [lia | lia | vm_compute; reflexivity].
Defined.

(** C4 as stated fails: under the default limit the call with [n = 20579]
    never prints its value of index [k = 20578]; the output has no such
    piece. *)
Lemma fibonacci_run_20579_value_missing :
  1 <= 20579 /\ 0 <= 20578 < 20579 /\
  ~ (exists tok : string,
        nth_error (split " " (final (fibonacci_run default_limit 20579 "")))
                  (Z.to_nat 20578) = Some tok /\
        tok = str (fibonacci_recursive 20578) /\
        parse_int tok = Some (fibonacci_recursive 20578)).
Proof.
  split; [lia | split; [lia |]].
  intros (tok & Hnth & Htok & _).
  rewrite fibonacci_run_output, all_fit_20579 in Hnth. cbn [append] in Hnth.
  rewrite split_spaced in Hnth by apply strs_no_space.
  assert (Hshort : (List.length
                      (map str (fitting_prefix default_limit
                                  (map fibonacci_recursive (range 20579))))
                    <= Z.to_nat 20578)%nat).
  { rewrite length_map.
    apply (fitting_prefix_short default_limit _ _ (fibonacci_recursive 20578)).
    - rewrite nth_error_map.
      rewrite range_nth by lia.
      cbn [option_map]. rewrite Z2Nat.id by lia. reflexivity.
    - exact value_20578_too_long. }
  rewrite nth_error_app2 in Hnth by exact Hshort.
  rewrite split_empty in Hnth. apply nth_error_single in Hnth.
  subst tok. symmetry in Htok. now apply str_nonempty in Htok.
Qed.

(** ** Further properties of the producer under the limit *)

(** X8. What a call of the producer does, for every [n] and every limit:
    it writes the evaluator's values of index [0] to [n - 1] in order, each
    followed by a space, for as long as they fit the limit; when all fit it
    ends the line with a newline and completes, otherwise it raises at the
    first value that does not fit, with only the earlier values written. *)
Theorem fibonacci_run_exact (limit : nat) (n : Z) (out : stdout) :
  fibonacci_run limit n out =
  if all_fit limit n
  then Normal (out ++ spaced (map str (map fibonacci_recursive (range n)))
                   ++ newline)
  else Raised (out ++ spaced (map str (fitting_prefix limit
                                         (map fibonacci_recursive (range n))))).
Proof.
  rewrite fibonacci_run_cases, fibonacci_writes, map_map. reflexivity.
Qed.

(** X10. For [n >= 0] whose values of index [0] to [n] fit the limit, the
    call for [n + 1] completes with the line written for [n] and one more
    item before the newline: the evaluator's value at [n] and a space. *)
Theorem fibonacci_run_one_more (limit : nat) (n : Z) (out : stdout) :
  0 <= n ->
  all_fit limit (n + 1) = true ->
  exists line : string,
    fibonacci_run limit n out = Normal (out ++ line ++ newline) /\
    fibonacci_run limit (n + 1) out =
      Normal (out ++ line ++ str (fibonacci_recursive n) ++ " " ++ newline).
Proof.
  intros Hn Hfit.
  exists (spaced (map (fun k => str (fibonacci_recursive k)) (range n))).
  rewrite !fibonacci_run_cases, Hfit.
  rewrite (all_fit_le limit n (n + 1)) by (lia || assumption).
  split; [now rewrite fibonacci_writes |].
  rewrite fibonacci_writes, range_succ, map_app, spaced_app by assumption.
  cbn [map spaced fold_right].
  now rewrite !append_assoc.
Qed.

Lemma fibonacci_run_one_more_at_3 :
  0 <= 3 /\ all_fit default_limit (3 + 1) = true /\
  exists line : string,
    fibonacci_run default_limit 3 "" = Normal ("" ++ line ++ newline) /\
    fibonacci_run default_limit (3 + 1) "" =
      Normal ("" ++ line ++ str (fibonacci_recursive 3) ++ " " ++ newline).
Proof.
  split; [lia | split; [vm_compute; reflexivity |]].
  apply (fibonacci_run_one_more default_limit 3 "");
    [lia | vm_compute; reflexivity].
Defined.

(** X11. Whatever [n] and the limit are, what the producer writes before
    the end of the line is made of digits and spaces only, so it has no
    minus sign and no newline inside; a call that completes ends it with
    one newline, and a call that raises writes no newline at all. *)
Theorem fibonacci_run_single_line (limit : nat) (n : Z) :
  exists line : string,
    all_chars digit_or_space line = true /\
    has_char "-" line = false /\
    has_char (ascii_of_nat 10) line = false /\
    fibonacci_run limit n "" =
      if all_fit limit n then Normal (line ++ newline) else Raised line.
Proof.
  exists (spaced (map str (fitting_prefix limit
                             (map fibonacci_recursive (range n))))).
  assert (Hd : all_chars digit_or_space
                 (spaced (map str (fitting_prefix limit
                                     (map fibonacci_recursive (range n))))) = true).
  { apply spaced_digits, fitting_prefix_nonneg, Forall_map, Forall_forall.
    intros k _. apply fibonacci_recursive_nonneg. }
  split; [exact Hd | split; [| split]].
  - now apply (all_chars_absent digit_or_space).
  - now apply (all_chars_absent digit_or_space).
  - rewrite fibonacci_run_cases, fibonacci_writes. unfold all_fit.
    destruct (forallb (fits limit) (map fibonacci_recursive (range n))) eqn:Hall;
      [| reflexivity].
    rewrite fitting_prefix_all by exact Hall.
    now rewrite map_map.
Qed.


(** X13. Once a call raises, every call for a larger [n] raises too, and
    a call that completes for [n] completes for every smaller [n]: the
    calls that complete are those below a threshold. *)
Theorem fibonacci_run_raises_above (limit : nat) (m n : Z) (out o : stdout) :
  m <= n ->
  fibonacci_run limit m out = Raised o ->
  exists o' : stdout, fibonacci_run limit n out = Raised o'.
Proof.
  intros Hmn Hm.
  rewrite fibonacci_run_cases in *.
  destruct (all_fit limit n) eqn:Hn.
  - rewrite (all_fit_le limit m n Hmn Hn) in Hm. discriminate Hm.
  - eexists. reflexivity.
Qed.

Lemma fibonacci_run_raises_above_at_8_9 :
  8 <= 9 /\
  fibonacci_run 1 8 "" = Raised "0 1 1 2 3 5 8 " /\
  exists o' : stdout, fibonacci_run 1 9 "" = Raised o'.
Proof.
  split; [lia | split; [vm_compute; reflexivity |]].
  apply (fibonacci_run_raises_above 1 8 9 "" "0 1 1 2 3 5 8 ");
    [lia | vm_compute; reflexivity].
Defined.

(** * Concrete runs under the limit *)

Example fibonacci_run_10 :
  fibonacci_run default_limit 10 "" = Normal ("0 1 1 2 3 5 8 13 21 34 " ++ newline).
Proof. vm_compute. reflexivity. Qed.

Example fibonacci_run_two_digits :
  fibonacci_run 2 15 "" = Raised "0 1 1 2 3 5 8 13 21 34 55 89 ".
Proof. vm_compute. reflexivity. Qed.

Example fibonacci_run_negative :
  fibonacci_run default_limit (-3) "x" = Normal ("x" ++ newline).
Proof. vm_compute. reflexivity. Qed.
